(** * django-verification: the key/claim subsystem of [verification/models.py]

    A shallow embedding of the models module: the two tables ([KeyGroup] and
    [Key]), the manager views ([expired], [available], [claimed_keys],
    [delete_expired]), [AbstractKey.save] / [clean] / [generate] and the
    module-level [claim] function, followed by the properties of the
    specification that were checked against them.

    Conventions of the embedding.
    - A [datetime] is an integer number of microseconds on the time line;
      [timedelta(minutes=m)] is [m * 60000000].  The calendar range of
      Python's [datetime] is not represented.
    - Python's [None] is [None] of an option type; truthiness tests are
      written out ([truthy_int], [truthy_str], [is_Some]).
    - The database is explicit state ([World]); code that reads or writes it
      lives in the state-and-exception monad [M].  An exception does not roll
      back what was written before it was raised.
    - A queryset is the list of rows it selects; the [Meta.ordering] of the
      result and the [max_length] of the character columns are not
      represented. *)

From stdpp Require Import base option list gmap strings.
From Stdlib Require Import ZArith Lia Ascii.

Local Open Scope Z_scope.

(** ** Data model *)

Definition datetime := Z.

(** [timedelta(minutes=m)] in microseconds. *)
Definition timedelta_minutes (m : Z) : Z := m * 60000000.

(** A reference to a row of [settings.AUTH_USER_MODEL] (its primary key). *)
Definition User := nat.

(** [class KeyGroup(models.Model)]; [name] is the primary key. *)
Record KeyGroup := mkKeyGroup {
  name : string;
  ttl : option Z;
  generator : string;
  has_fact : bool
}.

(** [class Key(AbstractKey)].  [pk] is the automatic [id] column and
    [group] holds the foreign key (the group's [name]).  On an instance that
    was never saved, [pk] and [pub_date] are [None]. *)
Record Key := mkKey {
  pk : option nat;
  key : string;
  group : string;
  fact : option string;
  pub_date : option datetime;
  expires : option datetime;
  claimed : option datetime;
  claimed_by : option User
}.

Global Instance KeyGroup_eq_dec : EqDecision KeyGroup.
Proof. solve_decision. Defined.

Global Instance Key_eq_dec : EqDecision Key.
Proof. solve_decision. Defined.

(** Attribute assignments [self.x = v]. *)
Definition set_pk (v : option nat) (k : Key) : Key :=
  mkKey v (key k) (group k) (fact k) (pub_date k) (expires k) (claimed k) (claimed_by k).
Definition set_fact (v : option string) (k : Key) : Key :=
  mkKey (pk k) (key k) (group k) v (pub_date k) (expires k) (claimed k) (claimed_by k).
Definition set_pub_date (v : option datetime) (k : Key) : Key :=
  mkKey (pk k) (key k) (group k) (fact k) v (expires k) (claimed k) (claimed_by k).
Definition set_expires (v : option datetime) (k : Key) : Key :=
  mkKey (pk k) (key k) (group k) (fact k) (pub_date k) v (claimed k) (claimed_by k).
Definition set_claimed (v : option datetime) (k : Key) : Key :=
  mkKey (pk k) (key k) (group k) (fact k) (pub_date k) (expires k) v (claimed_by k).
Definition set_claimed_by (v : option User) (k : Key) : Key :=
  mkKey (pk k) (key k) (group k) (fact k) (pub_date k) (expires k) (claimed k) v.

(** [Key(group=group, key=keystring)]: every other field at its default. *)
Definition Key_init (g : KeyGroup) (keystring : string) : Key :=
  mkKey None keystring (name g) None None None None None.

(** The text of a [VerificationError], one constructor per [raise] in
    [claim]. *)
Inductive VerificationMsg :=
  | Key_does_not_exist (keystring : string)
  | Key_expired_on (e : datetime)
  | Key_has_already_been_claimed.

Inductive Exn :=
  | VerificationError (m : VerificationMsg)
  | ValidationError
  | Key_DoesNotExist
  | Key_MultipleObjectsReturned
  | KeyGroup_DoesNotExist
  | IntegrityError
  | UnknownGeneratorError
  | TypeError.

Global Instance VerificationMsg_eq_dec : EqDecision VerificationMsg.
Proof. solve_decision. Defined.

Global Instance Exn_eq_dec : EqDecision Exn.
Proof. solve_decision. Defined.

(** What a receiver of [key_claimed] is called with. *)
Record ClaimSignal := mkSignal {
  sender : Key;
  sig_claimant : User;
  sig_group : KeyGroup
}.

(** The state the module works on: the [Key] table, the [KeyGroup] table
    (by primary key) and the [key_claimed] signals sent so far. *)
Record World := mkWorld {
  keys : list Key;
  groups : gmap string KeyGroup;
  signals : list ClaimSignal
}.

Definition set_keys (rows : list Key) (w : World) : World :=
  mkWorld rows (groups w) (signals w).
Definition add_signal (s : ClaimSignal) (w : World) : World :=
  mkWorld (keys w) (groups w) (signals w ++ [s]).

(** ** The state-and-exception monad *)

Definition M (A : Type) : Type := World → (Exn + A) * World.

Definition ret {A} (a : A) : M A := λ w, (inr a, w).
Definition raise {A} (e : Exn) : M A := λ w, (inl e, w).
Definition bind {A B} (c : M A) (f : A → M B) : M B := λ w,
  match c w with
  | (inr a, w') => f a w'
  | (inl e, w') => (inl e, w')
  end.

Notation "'do' x <- c ; f" := (bind c (λ x, f))
  (at level 10, x pattern, c at level 100, f at level 200).
Notation "c ;; f" := (bind c (λ _, f))
  (at level 100, f at level 200, right associativity).

(** ** Python truthiness *)

(** [if n:] for an [IntegerField(null=True)]. *)
Definition truthy_int (o : option Z) : bool :=
  match o with
  | Some n => negb (n =? 0)
  | None => false
  end.


(** ** Field lookups of the ORM (SQL three-valued logic: a comparison with
    NULL selects nothing) *)

Definition expires__lte (now : datetime) (r : Key) : bool :=
  match expires r with
  | Some e => e <=? now
  | None => false
  end.

Definition expires__gt (now : datetime) (r : Key) : bool :=
  match expires r with
  | Some e => now <? e
  | None => false
  end.

Definition expires__isnull (r : Key) : bool :=
  match expires r with Some _ => false | None => true end.

Definition claimed__isnull (r : Key) : bool :=
  match claimed r with Some _ => false | None => true end.

(** ** [models.Model.save] and the managers' [get] *)

Definition fresh_pk (rows : list Key) : nat :=
  S (max_list (omap pk rows)).

Definition row_exists (i : nat) (rows : list Key) : bool :=
  bool_decide (Exists (λ r, pk r = Some i) rows).

(** The [unique=True] constraint on [key]: another row already has it. *)
Definition key_taken (k : Key) (rows : list Key) : bool :=
  bool_decide (Exists (λ r, key r = key k ∧ pk r ≠ pk k) rows).

(** [UPDATE ... WHERE id = pk]. *)
Definition update_row (k : Key) (rows : list Key) : list Key :=
  (λ r, if decide (pk r = pk k) then k else r) <$> rows.

(** [super(AbstractKey, self).save()].  A record whose primary key is in the
    table is updated, any other is inserted, with [pub_date] set by
    [auto_now_add].  The unique constraint on [key], the foreign key on
    [group] and NOT NULL on [pub_date] raise [IntegrityError]. *)
Definition Model_save (now : datetime) (k : Key) : M Key := λ w,
  let rows := keys w in
  let exists_ := match pk k with Some i => row_exists i rows | None => false end in
  let k1 :=
    if exists_ then k
    else set_pub_date (Some now)
           (match pk k with
            | Some _ => k
            | None => set_pk (Some (fresh_pk rows)) k
            end) in
  if key_taken k1 rows then (inl IntegrityError, w)
  else if bool_decide (groups w !! group k1 = None) then (inl IntegrityError, w)
  else if bool_decide (pub_date k1 = None) then (inl IntegrityError, w)
  else if exists_ then (inr k1, set_keys (update_row k1 rows) w)
  else (inr k1, set_keys (rows ++ [k1]) w).

(** [Key.objects.get(key=keystring)]. *)
Definition Key_objects_get (keystring : string) : M Key := λ w,
  match filter (λ r, key r = keystring) (keys w) with
  | [] => (inl Key_DoesNotExist, w)
  | [r] => (inr r, w)
  | _ => (inl Key_MultipleObjectsReturned, w)
  end.

(** [KeyGroup.objects.get(pk=n)], as done by the descriptor of a foreign
    key. *)
Definition KeyGroup_objects_get (n : string) : M KeyGroup := λ w,
  match groups w !! n with
  | Some g => (inr g, w)
  | None => (inl KeyGroup_DoesNotExist, w)
  end.


(** [self.group] on a [Key] instance: the related object, from the
    instance's cache when it was passed to the constructor, otherwise
    fetched by primary key. *)
Definition self_group (cache : option KeyGroup) (k : Key) : M KeyGroup :=
  match cache with
  | Some g => ret g
  | None => KeyGroup_objects_get (group k)
  end.

(** ** The generator registry

    Modelled from the spec: [verification/generators.py] is not part of the
    sources at hand.  The registry maps a name to a generator factory;
    [available()] is its set of names and [get(name)] resolves a name,
    failing with [UnknownGeneratorError] when it was never registered.  A
    factory applied to a seed gives an object whose [generate_one_key] method
    returns the key string, so a factory is taken as the function from seed
    and arguments to that string. *)

Definition Generator : Type := option string → list string → string.

Definition registry_available (registry : gmap string Generator) : gset string :=
  dom registry.

Definition registry_get (registry : gmap string Generator) (n : string)
    : Exn + Generator :=
  match registry !! n with
  | Some G => inr G
  | None => inl UnknownGeneratorError
  end.

(** ** [KeyGroup.get_generator] *)

(** The method has no [else] branch: for a name that is not available it
    falls off the end and returns [None]. *)
Definition get_generator (registry : gmap string Generator) (g : KeyGroup)
    : Exn + option Generator :=
  if decide (generator g ∈ registry_available registry) then
    match registry_get registry (generator g) with
    | inr G => inr (Some G)
    | inl e => inl e
    end
  else inr None.

(** ** [AbstractKey] *)

(** [AbstractKey.save].  Returns the instance together with the related
    group it now caches. *)
Definition save (now : datetime) (cache : option KeyGroup) (k : Key)
    : M (Key * KeyGroup) :=
  do k1 <- Model_save now k;
  do g <- self_group cache k1;
  if truthy_int (ttl g) then
    match ttl g, pub_date k1 with
    | Some t, Some p =>
        let add_minutes := timedelta_minutes t in
        do k2 <- Model_save now (set_expires (Some (p + add_minutes)) k1);
        ret (k2, g)
    | _, _ => raise TypeError
    end
  else ret (k1, g).


(** [AbstractKey.generate].  Calling [Generator(seed=seed)] when
    [get_generator] returned [None] is a [TypeError]. *)
Definition generate (registry : gmap string Generator) (now : datetime)
    (g : KeyGroup) (seed : option string) (args : list string) : M Key :=
  match get_generator registry g with
  | inl e => raise e
  | inr None => raise TypeError
  | inr (Some G) =>
      let keystring := G seed args in
      let k := Key_init g keystring in
      do r <- save now (Some g) k;
      ret (fst r)
  end.

(** ** [claim]

    Modelled from the spec: [verification/signals.py] is not part of the
    sources at hand.  [key_claimed.send_robust] calls every receiver with the
    sender and the keyword arguments and swallows their exceptions; here it
    records the signal that the receivers are called with. *)
Definition key_claimed_send_robust (k : Key) (claimant : User) (g : KeyGroup)
    : M unit := λ w,
  (inr tt, add_signal (mkSignal k claimant g) w).

(** Lines 34-37 of [claim]: the lookup, with [Key.DoesNotExist] turned into
    a [VerificationError]. *)
Definition claim_lookup (keystring : string) : M Key := λ w,
  match Key_objects_get keystring w with
  | (inl Key_DoesNotExist, w') =>
      (inl (VerificationError (Key_does_not_exist keystring)), w')
  | r => r
  end.

(** Lines 38-46 of [claim]: the two checks on the instance that was read,
    the assignments, [save] and the signal. *)
Definition claim_commit (now : datetime) (claimant : User) (k : Key) : M Key :=
  match expires k with
  | Some e =>
      if e <=? now then raise (VerificationError (Key_expired_on e))
      else ret tt
  | None => ret tt
  end;;
  (if bool_decide (is_Some (claimed k))
   then raise (VerificationError Key_has_already_been_claimed)
   else ret tt);;
  let k := set_claimed_by (Some claimant) k in
  let k := set_claimed (Some now) k in
  do r <- save now None k;
  key_claimed_send_robust (fst r) claimant (snd r);;
  ret (fst r).

(** [claim(keystring, claimant)]; [now] is the reading of the clock on its
    first line. *)
Definition claim (now : datetime) (keystring : string) (claimant : User)
    : M Key :=
  do k <- claim_lookup keystring;
  claim_commit now claimant k.

(** [AbstractKey.claim(self, user)]. *)
Definition Key_claim (now : datetime) (self : Key) (user : User) : M Key :=
  claim now (key self) user.

(** ** [KeyMixin] on the manager [Key.objects] *)

(** [KeyManager.get_query_set]: all rows of the table. *)
Definition get_query_set (w : World) : list Key := keys w.

(** [exclude(expires=None).filter(expires__lte=now)]. *)
Definition expired (now : datetime) (w : World) : list Key :=
  filter (λ r, expires__lte now r)
    (filter (λ r, ¬ expires__isnull r) (get_query_set w)).

(** [filter(Q(expires__gt=now)|Q(expires=None)).filter(claimed=None)]. *)
Definition available (now : datetime) (w : World) : list Key :=
  filter (λ r, claimed__isnull r)
    (filter (λ r, expires__gt now r || expires__isnull r) (get_query_set w)).

(** [KeyMixin.claimed]: [exclude(claimed=None)].  (The name [claimed] is
    taken by the field.) *)
Definition claimed_keys (w : World) : list Key :=
  filter (λ r, ¬ claimed__isnull r) (get_query_set w).

(** [QuerySet.delete()]: the selected rows leave the table. *)
Definition QuerySet_delete (qs : list Key) : M unit := λ w,
  (inr tt, set_keys (list_difference (keys w) qs) w).

(** [self.filter(expires__lte=now).delete()]. *)
Definition delete_expired (now : datetime) : M unit := λ w,
  QuerySet_delete (filter (λ r, expires__lte now r) (keys w)) w.

(** ** Running several calls

    [claim_all calls] makes the calls of [claim] one after the other, each
    with its own clock reading, key string and claimant. *)
Fixpoint claim_all (calls : list (datetime * string * User)) (w : World)
    : list (Exn + Key) * World :=
  match calls with
  | [] => ([], w)
  | (now, keystring, claimant) :: rest =>
      let (r, w1) := claim now keystring claimant w in
      let (rs, w2) := claim_all rest w1 in
      (r :: rs, w2)
  end.

(** The call raised a [VerificationError]. *)
Definition refused (r : Exn + Key) : Prop :=
  ∃ m, r = inl (VerificationError m).

(** Calls of [claim] in progress at the same time.  Nothing in [claim]
    holds a lock or opens a transaction, so another call may run between the
    lookup (line 35) and what follows it; a call is therefore in one of three
    places. *)
Inductive ClaimCall :=
  | Called (keystring : string) (claimant : User)
  | Fetched (now : datetime) (claimant : User) (k : Key)
  | Returned (r : Exn + Key).

(** One move of a call; [clock] is what [tznow()] answers when the call
    starts. *)
Definition call_step (clock : datetime) (t : ClaimCall) (w : World)
    : ClaimCall * World :=
  match t with
  | Called keystring claimant =>
      match claim_lookup keystring w with
      | (inr k, w') => (Fetched clock claimant k, w')
      | (inl e, w') => (Returned (inl e), w')
      end
  | Fetched now claimant k =>
      let (r, w') := claim_commit now claimant k w in (Returned r, w')
  | Returned r => (t, w)
  end.

(** A schedule names, move after move, the call that moves and the clock
    reading. *)
Fixpoint run (sched : list (nat * datetime)) (calls : list ClaimCall)
    (w : World) : list ClaimCall * World :=
  match sched with
  | [] => (calls, w)
  | (i, clock) :: rest =>
      match calls !! i with
      | Some t =>
          let (t', w') := call_step clock t w in
          run rest (<[i := t']> calls) w'
      | None => run rest calls w
      end
  end.

(** ** Integrity of the database

    What the schema promises of every stored state: rows have a primary key
    and a [pub_date], primary keys and [key]s are unique, and every [group]
    refers to a row of [KeyGroup]. *)
Definition wf_row (gs : gmap string KeyGroup) (r : Key) : Prop :=
  is_Some (pk r) ∧ is_Some (pub_date r) ∧ is_Some (gs !! group r).

Definition wf_world (w : World) : Prop :=
  Forall (wf_row (groups w)) (keys w) ∧
  NoDup (pk <$> keys w) ∧
  NoDup (key <$> keys w).

Global Instance wf_row_dec gs r : Decision (wf_row gs r).
Proof. unfold wf_row. apply _. Defined.

Global Instance wf_world_dec w : Decision (wf_world w).
Proof. unfold wf_world. apply _. Defined.

(** A computation keeps the constraints when it does so from every
    consistent world, whatever its outcome. *)
Definition keeps_wf {A} (c : M A) : Prop :=
  ∀ w, wf_world w → wf_world (snd (c w)).

(** The expiry a row has once [AbstractKey.save] ran on it for group [g]. *)
Definition derive_expires (g : KeyGroup) (k : Key) : option datetime :=
  match ttl g, pub_date k with
  | Some t, Some p =>
      if t =? 0 then expires k else Some (p + timedelta_minutes t)
  | _, _ => expires k
  end.

(** [now] is before the expiry [e], or there is none. *)
Definition live_at (now : datetime) (e : option datetime) : Prop :=
  match e with
  | Some x => now < x
  | None => True
  end.

Global Instance live_at_dec now e : Decision (live_at now e).
Proof. destruct e; simpl; apply _. Defined.

(** The instance [claim] returns for the stored row [k] of group [g]: the
    two assignments of lines 42-43, then what [save] does to [expires]. *)
Definition claimed_instance (now : datetime) (claimant : User)
    (g : KeyGroup) (k : Key) : Key :=
  let k1 := set_claimed (Some now) (set_claimed_by (Some claimant) k) in
  set_expires (derive_expires g k1) k1.


(** A small scenario used to exercise the statements: the demo application's
    group, one registered generator, and a clock in microseconds. *)
Module Demo.

Definition md5_hex : Generator := λ seed _,
  match seed with
  | Some s => s
  | None => "d41d8cd98f00b204"%string
  end.

Definition registry : gmap string Generator :=
  {[ "md5-hex"%string := md5_hex ]}.

Definition activate_account : KeyGroup :=
  mkKeyGroup "activate_account" (Some 60) "md5-hex" false.

(** A group that demands a fact and has no ttl, and one whose ttl is 0. *)
Definition verify_email : KeyGroup :=
  mkKeyGroup "verify_email" None "md5-hex" true.

Definition one_shot : KeyGroup :=
  mkKeyGroup "one_shot" (Some 0) "md5-hex" false.

Definition w0 : World :=
  mkWorld []
    (<["activate_account"%string := activate_account]>
       (<["verify_email"%string := verify_email]>
          {[ "one_shot"%string := one_shot ]}))
    [].

(** [Key.generate(activate_account)] at time 1000. *)
Definition w1 : World :=
  snd (generate registry 1000 activate_account None [] w0).

Definition T1 : Key :=
  mkKey (Some 1%nat) "d41d8cd98f00b204" "activate_account" None
    (Some 1000) (Some 3600001000) None None.

(** [claim(T1.key, 7)] at time 2000. *)
Definition w2 : World :=
  snd (claim 2000 "d41d8cd98f00b204" 7%nat w1).

Definition T1_claimed : Key :=
  set_claimed (Some 2000) (set_claimed_by (Some 7%nat) T1).


End Demo.

(** ** The demo application ([demo/projectapp/views.py])

    Python strings are sequences of characters of a type [char]; [isspace]
    is the whitespace test that [str.strip] and [str.split] without argument
    use. *)
Section Strings.

Context {char : Type} (isspace : char → bool).

(** [s.lstrip()]. *)
Fixpoint lstrip (s : list char) : list char :=
  match s with
  | [] => []
  | c :: s' => if isspace c then lstrip s' else s
  end.

(** [s.rstrip()]. *)
Definition rstrip (s : list char) : list char :=
  reverse (lstrip (reverse s)).

(** [s.strip()]. *)
Definition strip (s : list char) : list char :=
  rstrip (lstrip s).

(** [s.split()]: the maximal runs of characters that are not whitespace.
    [word] holds, last character first, the run being read. *)
Fixpoint split_from (word : list char) (s : list char) : list (list char) :=
  match s with
  | [] =>
      match word with
      | [] => []
      | _ => [reverse word]
      end
  | c :: s' =>
      if isspace c then
        match word with
        | [] => split_from [] s'
        | _ => reverse word :: split_from [] s'
        end
      else split_from (c :: word) s'
  end.

Definition split (s : list char) : list (list char) := split_from [] s.

(** [''.join(words)]. *)
Definition join_empty (words : list (list char)) : list char := concat words.

(** What [send_mail] is called with. *)
Record Mail := mkMail {
  mail_subject : list char;
  mail_message : list char;
  mail_from : list char;
  mail_recipients : list (list char)
}.

(** [send_verification_email(recipient, content)]: the call of [send_mail]
    it makes.  [subject] and [noreply] stand for its two string literals. *)
Definition send_verification_email (subject noreply : list char)
    (recipient content : list char) : Mail :=
  let recipient := join_empty (split (strip recipient)) in
  mkMail subject content noreply [recipient].

End Strings.


(** The four ways a call of [claim] can end in a consistent database, each
    with what it leaves behind. *)
Inductive claim_case (now : datetime) (ks : string) (c : User) (w : World)
    : Prop :=
  | case_absent :
      (∀ r, r ∈ keys w → key r ≠ ks) →
      claim now ks c w = (inl (VerificationError (Key_does_not_exist ks)), w) →
      claim_case now ks c w
  | case_expired (k : Key) (e : datetime) :
      k ∈ keys w → key k = ks → expires k = Some e → e ≤ now →
      claim now ks c w = (inl (VerificationError (Key_expired_on e)), w) →
      claim_case now ks c w
  | case_claimed (k : Key) :
      k ∈ keys w → key k = ks → live_at now (expires k) →
      is_Some (claimed k) →
      claim now ks c w =
        (inl (VerificationError Key_has_already_been_claimed), w) →
      claim_case now ks c w
  | case_ok (k : Key) (g : KeyGroup) :
      k ∈ keys w → key k = ks → live_at now (expires k) →
      claimed k = None → groups w !! group k = Some g →
      claim now ks c w =
        (inr (claimed_instance now c g k),
         add_signal (mkSignal (claimed_instance now c g k) c g)
           (set_keys (update_row (claimed_instance now c g k) (keys w)) w)) →
      claim_case now ks c w.

(** * Properties *)

(** ** Lists of rows *)

Lemma fmap_inj_on_NoDup {A B} (f : A → B) (l : list A) (x y : A) :
  NoDup (f <$> l) → x ∈ l → y ∈ l → f x = f y → x = y.
Proof.
  induction l as [|a l IH]; intros Hnd Hx Hy Hf.
  - by apply elem_of_nil in Hx.
  - rewrite fmap_cons in Hnd. apply NoDup_cons in Hnd as [Ha Hnd].
    apply elem_of_cons in Hx as [->|Hx]; apply elem_of_cons in Hy as [->|Hy].
    + done.
    + exfalso. apply Ha. rewrite Hf. by apply list_elem_of_fmap_2.
    + exfalso. apply Ha. rewrite <- Hf. by apply list_elem_of_fmap_2.
    + by apply IH.
Qed.

Lemma filter_key_unique (rows : list Key) (k : Key) :
  NoDup (key <$> rows) → k ∈ rows →
  filter (λ r, key r = key k) rows = [k].
Proof.
  induction rows as [|a rows IH]; intros Hnd Hk.
  - by apply elem_of_nil in Hk.
  - rewrite fmap_cons in Hnd. apply NoDup_cons in Hnd as [Ha Hnd].
    apply elem_of_cons in Hk as [->|Hk].
    + rewrite filter_cons_True by done. f_equal.
      apply elem_of_nil_inv. intros r [Hr Hin]%list_elem_of_filter.
      apply Ha. rewrite <- Hr. by apply list_elem_of_fmap_2.
    + rewrite filter_cons_False; [by apply IH|].
      intros Heq. apply Ha. rewrite Heq. by apply list_elem_of_fmap_2.
Qed.

Lemma filter_key_absent (rows : list Key) (ks : string) :
  (∀ r, r ∈ rows → key r ≠ ks) → filter (λ r, key r = ks) rows = [].
Proof.
  intros H. apply elem_of_nil_inv. intros r [Hr Hin]%list_elem_of_filter.
  by apply (H r).
Qed.

Lemma fresh_pk_above (rows : list Key) (r : Key) (i : nat) :
  r ∈ rows → pk r = Some i → (i < fresh_pk rows)%nat.
Proof.
  intros Hr Hi. unfold fresh_pk.
  assert (i ∈ omap pk rows) as Hin by (apply list_elem_of_omap; eauto).
  apply max_list_elem_of_le in Hin. lia.
Qed.

Lemma fresh_pk_unused (rows : list Key) (r : Key) :
  r ∈ rows → pk r ≠ Some (fresh_pk rows).
Proof.
  intros Hr Hi. pose proof (fresh_pk_above _ _ _ Hr Hi). lia.
Qed.

Lemma update_row_fmap_pk (k : Key) (rows : list Key) :
  pk <$> update_row k rows = pk <$> rows.
Proof.
  unfold update_row. rewrite <- list_fmap_compose.
  apply Forall_fmap_ext, Forall_forall. intros r _. simpl.
  by case_decide.
Qed.

Lemma update_row_fmap_key (k k0 : Key) (rows : list Key) :
  NoDup (pk <$> rows) → k0 ∈ rows → pk k = pk k0 → key k = key k0 →
  key <$> update_row k rows = key <$> rows.
Proof.
  intros Hnd Hk0 Hpk Hkey. unfold update_row. rewrite <- list_fmap_compose.
  apply Forall_fmap_ext, Forall_forall. intros r Hr. simpl.
  case_decide as Hd; [|done].
  rewrite Hpk in Hd.
  by rewrite (fmap_inj_on_NoDup pk rows r k0 Hnd Hr Hk0 Hd).
Qed.

Lemma update_row_elem (k k0 : Key) (rows : list Key) :
  k0 ∈ rows → pk k = pk k0 →
  ∀ r, r ∈ update_row k rows ↔ r = k ∨ (r ∈ rows ∧ pk r ≠ pk k).
Proof.
  intros Hk0 Hpk r. unfold update_row. rewrite list_elem_of_fmap. split.
  - intros (r0 & -> & Hr0). case_decide; [by left|by right].
  - intros [->|[Hr Hne]].
    + exists k0. split; [|done]. by rewrite decide_True.
    + exists r. split; [|done]. by rewrite decide_False.
Qed.

Lemma update_row_twice (k k' : Key) (rows : list Key) :
  pk k' = pk k → update_row k' (update_row k rows) = update_row k' rows.
Proof.
  intros Hpk. unfold update_row. rewrite <- list_fmap_compose.
  apply Forall_fmap_ext, Forall_forall. intros r _. simpl.
  destruct (decide (pk r = pk k)) as [Hd|Hd].
  - rewrite decide_True by done. rewrite decide_True; [done|congruence].
  - destruct (decide (pk r = pk k')) as [Hd'|Hd']; [congruence|done].
Qed.

Lemma update_row_wf (k k0 : Key) (w : World) :
  wf_world w → k0 ∈ keys w →
  pk k = pk k0 → key k = key k0 → group k = group k0 →
  is_Some (pub_date k) →
  wf_world (set_keys (update_row k (keys w)) w).
Proof.
  intros (Hrows & Hpks & Hkeys) Hk0 Hpk Hkey Hgrp Hpub.
  unfold wf_world. simpl.
  rewrite update_row_fmap_pk, (update_row_fmap_key k k0) by done.
  split; [|done].
  rewrite Forall_forall in *. intros r Hr.
  apply (update_row_elem k k0) in Hr as [->|[Hr _]]; [|by auto|done..].
  destruct (Hrows k0 Hk0) as (H1 & H2 & H3).
  unfold wf_row. by rewrite Hpk, Hgrp.
Qed.

(** ** [Model.save] *)

Lemma Model_save_update (now : datetime) (k k0 : Key) (w : World) :
  wf_world w → k0 ∈ keys w →
  pk k = pk k0 → key k = key k0 → group k = group k0 →
  is_Some (pub_date k) →
  Model_save now k w = (inr k, set_keys (update_row k (keys w)) w).
Proof.
  intros (Hrows & Hpks & Hkeys) Hk0 Hpk Hkey Hgrp [p Hpub].
  rewrite Forall_forall in Hrows.
  destruct (Hrows k0 Hk0) as ([i Hi] & _ & [g Hg]).
  unfold Model_save. rewrite Hpk, Hi.
  assert (row_exists i (keys w) = true) as ->.
  { apply bool_decide_eq_true, Exists_exists. eauto. }
  assert (key_taken k (keys w) = false) as ->.
  { apply bool_decide_eq_false. intros (r & Hr & Hrk & Hrp)%Exists_exists.
    apply Hrp. rewrite Hkey in Hrk.
    by rewrite (fmap_inj_on_NoDup key (keys w) r k0 Hkeys Hr Hk0 Hrk). }
  rewrite Hgrp, Hg, Hpub.
  rewrite !bool_decide_eq_false_2 by done. done.
Qed.


(** ** [AbstractKey.save] *)

Lemma set_expires_same (k : Key) : set_expires (expires k) k = k.
Proof. by destruct k. Qed.

Lemma truthy_int_true (o : option Z) :
  truthy_int o = true ↔ ∃ t, o = Some t ∧ t ≠ 0.
Proof.
  destruct o as [t|]; simpl.
  - rewrite negb_true_iff, Z.eqb_neq. split; [eauto|].
    by intros (? & [= <-] & ?).
  - split; [done|]. by intros (? & ? & ?).
Qed.

Lemma derive_expires_falsy (g : KeyGroup) (k : Key) :
  truthy_int (ttl g) = false → derive_expires g k = expires k.
Proof.
  unfold derive_expires, truthy_int. destruct (ttl g) as [t|]; [|done].
  intros ->%negb_false_iff. by destruct (pub_date k).
Qed.

Lemma derive_expires_truthy (g : KeyGroup) (k : Key) (t p : Z) :
  ttl g = Some t → t ≠ 0 → pub_date k = Some p →
  derive_expires g k = Some (p + timedelta_minutes t).
Proof.
  intros Ht Hne Hp. unfold derive_expires. rewrite Ht, Hp.
  by apply Z.eqb_neq in Hne as ->.
Qed.

(** Saving an instance that was read from the table (the path [claim]
    takes): one or two UPDATEs of its row. *)
Lemma save_existing (now : datetime) (k k0 : Key) (g : KeyGroup) (w : World) :
  wf_world w → k0 ∈ keys w →
  pk k = pk k0 → key k = key k0 → group k = group k0 →
  is_Some (pub_date k) →
  groups w !! group k = Some g →
  save now None k w =
    (inr (set_expires (derive_expires g k) k, g),
     set_keys (update_row (set_expires (derive_expires g k) k) (keys w)) w).
Proof.
  intros Hwf Hk0 Hpk Hkey Hgrp Hpub Hg.
  unfold save, bind. rewrite (Model_save_update now k k0) by done.
  unfold self_group, KeyGroup_objects_get. simpl. rewrite Hg.
  destruct (truthy_int (ttl g)) eqn:Httl.
  - apply truthy_int_true in Httl as (t & Ht & Hne).
    destruct Hpub as [p Hp]. rewrite Ht, Hp.
    rewrite (derive_expires_truthy g k t p) by done.
    set (k2 := set_expires _ k).
    rewrite (Model_save_update now k2 k).
    + unfold ret. simpl. by rewrite update_row_twice.
    + by apply (update_row_wf k k0).
    + simpl. apply (update_row_elem k k0); auto.
    + done.
    + done.
    + done.
    + simpl. rewrite Hp. eauto.
  - rewrite derive_expires_falsy by done. by rewrite set_expires_same.
Qed.


(** [save] raises nothing but what the database and the arithmetic raise. *)
Lemma Model_save_raises (now : datetime) (k : Key) (w w' : World) (e : Exn) :
  Model_save now k w = (inl e, w') → e = IntegrityError ∧ w' = w.
Proof.
  unfold Model_save. repeat case_match; naive_solver.
Qed.

Lemma save_raises (now : datetime) (cache : option KeyGroup) (k : Key)
    (w w' : World) (e : Exn) :
  save now cache k w = (inl e, w') →
  e = IntegrityError ∨ e = KeyGroup_DoesNotExist ∨ e = TypeError.
Proof.
  unfold save, bind, self_group, KeyGroup_objects_get, ret, raise.
  intros H.
  repeat (case_match; simplify_eq; eauto using Model_save_raises);
    match goal with
    | H : Model_save _ _ _ = (inl _, _) |- _ =>
        apply Model_save_raises in H as [-> _]; eauto
    end.
Qed.

(** ** [claim], branch by branch *)

Lemma claim_lookup_absent (ks : string) (w : World) :
  (∀ r, r ∈ keys w → key r ≠ ks) →
  claim_lookup ks w = (inl (VerificationError (Key_does_not_exist ks)), w).
Proof.
  intros H. unfold claim_lookup, Key_objects_get.
  by rewrite filter_key_absent.
Qed.

Lemma claim_lookup_found (ks : string) (k : Key) (w : World) :
  NoDup (key <$> keys w) → k ∈ keys w → key k = ks →
  claim_lookup ks w = (inr k, w).
Proof.
  intros Hnd Hk <-. unfold claim_lookup, Key_objects_get.
  by rewrite filter_key_unique.
Qed.

Lemma claim_commit_expired (now : datetime) (c : User) (k : Key) (e : datetime)
    (w : World) :
  expires k = Some e → e ≤ now →
  claim_commit now c k w = (inl (VerificationError (Key_expired_on e)), w).
Proof.
  intros He Hle. unfold claim_commit, bind. rewrite He.
  by apply Z.leb_le in Hle as ->.
Qed.

Lemma live_at_check (now : datetime) (k : Key) (w : World) :
  live_at now (expires k) →
  match expires k with
  | Some e =>
      if e <=? now then raise (VerificationError (Key_expired_on e))
      else ret tt
  | None => ret tt
  end w = (inr tt, w).
Proof.
  unfold live_at. destruct (expires k) as [e|]; [|done].
  intros Hlt. by rewrite (proj2 (Z.leb_gt e now) Hlt).
Qed.

Lemma claim_commit_claimed (now : datetime) (c : User) (k : Key) (w : World) :
  live_at now (expires k) → is_Some (claimed k) →
  claim_commit now c k w =
    (inl (VerificationError Key_has_already_been_claimed), w).
Proof.
  intros Hlive Hcl. unfold claim_commit, bind.
  rewrite live_at_check by done. by rewrite bool_decide_eq_true_2.
Qed.

Lemma claim_commit_ok (now : datetime) (c : User) (k : Key) (g : KeyGroup)
    (w : World) :
  wf_world w → k ∈ keys w →
  live_at now (expires k) → claimed k = None →
  groups w !! group k = Some g →
  claim_commit now c k w =
    (inr (claimed_instance now c g k),
     add_signal (mkSignal (claimed_instance now c g k) c g)
       (set_keys (update_row (claimed_instance now c g k) (keys w)) w)).
Proof.
  intros Hwf Hk Hlive Hcl Hg. unfold claim_commit, bind.
  rewrite live_at_check by done.
  rewrite bool_decide_eq_false_2 by (rewrite Hcl; by intros [? ?]).
  unfold ret at 1. cbv beta iota zeta.
  set (k1 := set_claimed (Some now) (set_claimed_by (Some c) k)).
  rewrite (save_existing now k1 k g); try done.
  destruct Hwf as (Hrows & _). rewrite Forall_forall in Hrows.
  by destruct (Hrows k Hk) as (_ & ? & _).
Qed.



Lemma pk_distinct_rows (rows : list Key) (k r : Key) :
  NoDup (pk <$> rows) → k ∈ rows → r ∈ rows → pk r ≠ pk k ↔ r ≠ k.
Proof.
  intros Hnd Hk Hr. split.
  - intros Hne ->. by apply Hne.
  - intros Hne Heq. apply Hne. by apply (fmap_inj_on_NoDup pk rows).
Qed.

Lemma claim_absent (now : datetime) (ks : string) (c : User) (w : World) :
  (∀ r, r ∈ keys w → key r ≠ ks) →
  claim now ks c w = (inl (VerificationError (Key_does_not_exist ks)), w).
Proof.
  intros H. unfold claim, bind. by rewrite claim_lookup_absent.
Qed.

Lemma claim_expired (now : datetime) (ks : string) (c : User) (k : Key)
    (e : datetime) (w : World) :
  NoDup (key <$> keys w) → k ∈ keys w → key k = ks →
  expires k = Some e → e ≤ now →
  claim now ks c w = (inl (VerificationError (Key_expired_on e)), w).
Proof.
  intros Hnd Hk Hks He Hle. unfold claim, bind.
  rewrite (claim_lookup_found ks k) by done.
  by apply claim_commit_expired.
Qed.

Lemma claim_already (now : datetime) (ks : string) (c : User) (k : Key)
    (w : World) :
  NoDup (key <$> keys w) → k ∈ keys w → key k = ks →
  live_at now (expires k) → is_Some (claimed k) →
  claim now ks c w = (inl (VerificationError Key_has_already_been_claimed), w).
Proof.
  intros Hnd Hk Hks Hlive Hcl. unfold claim, bind.
  rewrite (claim_lookup_found ks k) by done.
  by apply claim_commit_claimed.
Qed.

Lemma claim_ok (now : datetime) (ks : string) (c : User) (k : Key)
    (g : KeyGroup) (w : World) :
  wf_world w → k ∈ keys w → key k = ks →
  live_at now (expires k) → claimed k = None →
  groups w !! group k = Some g →
  claim now ks c w =
    (inr (claimed_instance now c g k),
     add_signal (mkSignal (claimed_instance now c g k) c g)
       (set_keys (update_row (claimed_instance now c g k) (keys w)) w)).
Proof.
  intros Hwf Hk Hks Hlive Hcl Hg. unfold claim, bind.
  rewrite (claim_lookup_found ks k) by (done || apply Hwf).
  by apply claim_commit_ok.
Qed.

Lemma wf_row_group (w : World) (k : Key) :
  wf_world w → k ∈ keys w → ∃ g, groups w !! group k = Some g.
Proof.
  intros (Hrows & _) Hk. rewrite Forall_forall in Hrows.
  by destruct (Hrows k Hk) as (_ & _ & ?).
Qed.





(** ** Failed claims *)

Lemma claim_commit_refused (now : datetime) (c : User) (k : Key)
    (w w' : World) (m : VerificationMsg) :
  claim_commit now c k w = (inl (VerificationError m), w') → w' = w.
Proof.
  unfold claim_commit, bind, raise, ret, key_claimed_send_robust.
  intros H.
  destruct (expires k) as [e|]; [destruct (e <=? now); [by simplify_eq|]|];
    (case_bool_decide; [by simplify_eq|]);
    (destruct (save now None _ w) as [[e'|[k' g]] w1] eqn:Hsave;
      [|by simplify_eq]);
    apply save_raises in Hsave; injection H as -> _;
    destruct Hsave as [?|[?|?]]; discriminate.
Qed.

Lemma claim_refused (now : datetime) (ks : string) (c : User)
    (w w' : World) (m : VerificationMsg) :
  claim now ks c w = (inl (VerificationError m), w') → w' = w.
Proof.
  unfold claim, bind, claim_lookup, Key_objects_get.
  destruct (filter _ (keys w)) as [|r [|r' rows]].
  - by intros [= _ <-].
  - apply claim_commit_refused.
  - by intros [= _ <-].
Qed.

(** C10.  A call of [claim] that raises a [VerificationError] (key not
    found, key expired, key already claimed) leaves the whole world as it
    was: every failing path raises before the first write.  The statement is
    for any sequence of calls, each on its own key string: when all of them
    are refused, the table after the last one is the table before the first,
    so an unclaimed row still has [claimed] and [claimed_by] unset. *)
Theorem C10_refused_claims_write_nothing
    (calls : list (datetime * string * User)) (w : World) :
  Forall refused (fst (claim_all calls w)) →
  snd (claim_all calls w) = w.
Proof.
  revert w. induction calls as [|[[now ks] c] rest IH]; intros w; [done|].
  simpl.
  destruct (claim now ks c w) as [r w1] eqn:Hc.
  destruct (claim_all rest w1) as [rs w2] eqn:Hrest. simpl.
  intros [[m ->] Hrs]%Forall_cons.
  apply claim_refused in Hc as ->.
  specialize (IH w). rewrite Hrest in IH. by apply IH.
Qed.

(** Three refused calls on [Demo.w2]: already claimed, unknown key string,
    expired. *)
Lemma C10_refused_claims_write_nothing_witness :
  Forall refused
    (fst (claim_all [(2500, "d41d8cd98f00b204"%string, 8%nat);
                     (2600, "0000"%string, 8%nat);
                     (3600001000, "d41d8cd98f00b204"%string, 9%nat)] Demo.w2)) ∧
  snd (claim_all [(2500, "d41d8cd98f00b204"%string, 8%nat);
                  (2600, "0000"%string, 8%nat);
                  (3600001000, "d41d8cd98f00b204"%string, 9%nat)] Demo.w2)
    = Demo.w2.
Proof.
  assert (Forall refused
    (fst (claim_all [(2500, "d41d8cd98f00b204"%string, 8%nat);
                     (2600, "0000"%string, 8%nat);
                     (3600001000, "d41d8cd98f00b204"%string, 9%nat)] Demo.w2)))
    as H.
  { vm_compute. repeat constructor; eexists; reflexivity. }
  split; [exact H|].
  exact (C10_refused_claims_write_nothing _ _ H).
Defined.

(** ** Calls in sequence and calls that overlap *)

(** A call that is alone makes its two moves and is the function [claim]. *)
Lemma run_single_call (now now' : datetime) (ks : string) (c : User)
    (w : World) :
  run [(0%nat, now); (0%nat, now')] [Called ks c] w =
    ([Returned (fst (claim now ks c w))], snd (claim now ks c w)).
Proof.
  unfold claim, bind. simpl.
  destruct (claim_lookup ks w) as [[e|k] w1]; simpl; [done|].
  by destruct (claim_commit now c k w1).
Qed.





(** ** The manager's views *)

Lemma expires__lte_spec (now : datetime) (r : Key) :
  expires__lte now r ↔ ∃ e, expires r = Some e ∧ e ≤ now.
Proof.
  unfold expires__lte. destruct (expires r) as [e|].
  - rewrite Is_true_true, Z.leb_le. split; [eauto|].
    by intros (? & [= <-] & ?).
  - split; [done|]. by intros (? & ? & _).
Qed.

Lemma expires__gt_spec (now : datetime) (r : Key) :
  expires__gt now r ↔ ∃ e, expires r = Some e ∧ now < e.
Proof.
  unfold expires__gt. destruct (expires r) as [e|].
  - rewrite Is_true_true, Z.ltb_lt. split; [eauto|].
    by intros (? & [= <-] & ?).
  - split; [done|]. by intros (? & ? & _).
Qed.

Lemma expires__isnull_spec (r : Key) : expires__isnull r ↔ expires r = None.
Proof. unfold expires__isnull. by destruct (expires r). Qed.

Lemma claimed__isnull_spec (r : Key) : claimed__isnull r ↔ claimed r = None.
Proof. unfold claimed__isnull. by destruct (claimed r). Qed.

Lemma elem_of_expired (now : datetime) (w : World) (k : Key) :
  k ∈ expired now w ↔ k ∈ keys w ∧ ∃ e, expires k = Some e ∧ e ≤ now.
Proof.
  unfold expired, get_query_set. rewrite !list_elem_of_filter.
  rewrite expires__lte_spec, expires__isnull_spec. split.
  - by intros (? & _ & ?).
  - intros (? & e & He & ?). split; [eauto|]. split; [|done]. by rewrite He.
Qed.

Lemma elem_of_available (now : datetime) (w : World) (k : Key) :
  k ∈ available now w ↔
  k ∈ keys w ∧ claimed k = None ∧
  (expires k = None ∨ ∃ e, expires k = Some e ∧ now < e).
Proof.
  unfold available, get_query_set. rewrite !list_elem_of_filter.
  rewrite claimed__isnull_spec, orb_True.
  rewrite expires__gt_spec, expires__isnull_spec. tauto.
Qed.

Lemma elem_of_claimed_keys (w : World) (k : Key) :
  k ∈ claimed_keys w ↔ k ∈ keys w ∧ is_Some (claimed k).
Proof.
  unfold claimed_keys, get_query_set. rewrite list_elem_of_filter.
  rewrite claimed__isnull_spec, <- not_eq_None_Some. tauto.
Qed.

(** C6.  For every table and every clock reading: [expired()] selects
    exactly the rows whose [expires] is set and [<= now]; [available()]
    exactly those whose [claimed] is unset and whose [expires] is unset or
    [> now]; [claimed()] exactly those whose [claimed] is set. *)
Theorem C6_views_select_exactly (now : datetime) (w : World) (k : Key) :
  (k ∈ expired now w ↔ k ∈ keys w ∧ ∃ e, expires k = Some e ∧ e ≤ now) ∧
  (k ∈ available now w ↔
     k ∈ keys w ∧ claimed k = None ∧
     (expires k = None ∨ ∃ e, expires k = Some e ∧ now < e)) ∧
  (k ∈ claimed_keys w ↔ k ∈ keys w ∧ is_Some (claimed k)).
Proof.
  split; [apply elem_of_expired|].
  split; [apply elem_of_available|apply elem_of_claimed_keys].
Qed.

(** C7, as amended.  [available()] is the complement, among the stored
    rows, of [expired()] and [claimed()] taken together: a row is available
    exactly when it is in neither of the two.  (Nothing is said of [expired()]
    against [claimed()]: they are filters on two different columns.) *)
Theorem C7_available_is_the_complement (now : datetime) (w : World) (k : Key) :
  k ∈ available now w ↔
  k ∈ keys w ∧ (k ∉ expired now w) ∧ (k ∉ claimed_keys w).
Proof.
  rewrite elem_of_available, elem_of_expired, elem_of_claimed_keys.
  rewrite <- not_eq_None_Some.
  destruct (expires k) as [e|]; destruct (claimed k) as [t|]; split.
  - by intros (_ & ? & _).
  - intros (H & _ & Hc). exfalso. apply Hc. split; [done|congruence].
  - intros (H & _ & [?|(e' & [= <-] & Hlt)]); [done|].
    split; [done|]. split; [|tauto].
    intros (_ & e' & [= <-] & Hle). lia.
  - intros (H & He & _). split; [done|]. split; [done|]. right.
    exists e. split; [done|].
    destruct (decide (e ≤ now)) as [Hle|Hgt]; [|lia].
    exfalso. apply He. eauto.
  - by intros (_ & ? & _).
  - intros (H & _ & Hc). exfalso. apply Hc. split; [done|congruence].
  - intros (H & _). split; [done|]. split; [|tauto].
    by intros (_ & e' & ? & _).
  - intros (H & _). eauto.
Qed.

(** C7, as stated, fails: the key of [Demo.w2] was claimed at 2000 and its
    expiry has passed at 3600001000; it is then both in [expired()] and in
    [claimed()]. *)
Lemma C7_claimed_key_that_expired_is_in_both :
  Demo.T1_claimed ∈ expired 3600001000 Demo.w2 ∧
  Demo.T1_claimed ∈ claimed_keys Demo.w2.
Proof. split; compute_done. Qed.

(** ** [delete_expired] *)

(** C9.  [delete_expired()] removes exactly the rows that [expired()]
    selects: a row is in the table afterwards exactly when it was there and
    its [expires] is unset or [> now]; whether it was claimed plays no part.
    The rows that stay are the same records in the same order, and nothing
    else in the world changes. *)
Theorem C9_delete_expired_removes_expired (now : datetime) (w : World) :
  fst (delete_expired now w) = inr tt ∧
  keys (snd (delete_expired now w)) = list_difference (keys w) (expired now w) ∧
  (∀ k, k ∈ keys (snd (delete_expired now w)) ↔
        k ∈ keys w ∧ ¬ (∃ e, expires k = Some e ∧ e ≤ now)) ∧
  expired now (snd (delete_expired now w)) = [] ∧
  groups (snd (delete_expired now w)) = groups w ∧
  signals (snd (delete_expired now w)) = signals w.
Proof.
  assert (∀ k, k ∈ keys (snd (delete_expired now w)) ↔
               k ∈ keys w ∧ ¬ (∃ e, expires k = Some e ∧ e ≤ now)) as Hrows.
  { intros k. simpl. rewrite list_elem_of_difference, list_elem_of_filter.
    rewrite expires__lte_spec. tauto. }
  split; [done|]. split; [|split; [done|split; [|done]]].
  - simpl. f_equal. unfold expired, get_query_set.
    rewrite list_filter_filter. apply list_filter_iff. intros r.
    rewrite expires__lte_spec, expires__isnull_spec. split; [|tauto].
    intros (e & He & Hle). split; [eauto|]. by rewrite He.
  - apply elem_of_nil_inv. intros k [Hk He]%elem_of_expired.
    apply Hrows in Hk. tauto.
Qed.

(** ** [get_generator] and [generate] *)

Lemma get_generator_registered (registry : gmap string Generator)
    (g : KeyGroup) (G : Generator) :
  registry !! generator g = Some G → get_generator registry g = inr (Some G).
Proof.
  intros HG. unfold get_generator, registry_available, registry_get.
  rewrite decide_True by (apply elem_of_dom; eauto). by rewrite HG.
Qed.

Lemma get_generator_unregistered (registry : gmap string Generator)
    (g : KeyGroup) :
  registry !! generator g = None → get_generator registry g = inr None.
Proof.
  intros HG. unfold get_generator, registry_available.
  rewrite decide_False; [done|]. by apply not_elem_of_dom.
Qed.




(** C5, as amended.  For a group whose generator name is registered,
    [get_generator()] returns the registered factory.  For a name that is
    not registered it raises nothing and returns [None]; [generate] on such
    a group then fails with the [TypeError] of calling [None], before
    anything is written. *)
Theorem C5_get_generator (registry : gmap string Generator) (g : KeyGroup) :
  (∀ G, registry !! generator g = Some G →
        get_generator registry g = inr (Some G)) ∧
  (registry !! generator g = None →
     get_generator registry g = inr None ∧
     ∀ now seed args w,
       generate registry now g seed args w = (inl TypeError, w)).
Proof.
  split; [apply get_generator_registered|].
  intros HG. split; [by apply get_generator_unregistered|].
  intros now seed args w. unfold generate.
  by rewrite get_generator_unregistered.
Qed.

(** The demo registry knows "md5-hex"; the empty registry does not. *)
Lemma C5_get_generator_witness :
  get_generator Demo.registry Demo.activate_account = inr (Some Demo.md5_hex) ∧
  get_generator ∅ Demo.activate_account = inr None.
Proof.
  destruct (C5_get_generator Demo.registry Demo.activate_account) as [Hreg _].
  destruct (C5_get_generator ∅ Demo.activate_account) as [_ Hun].
  split; [by apply Hreg|]. by apply Hun.
Defined.

(** C5, as stated, fails: with an empty registry, [get_generator] of the
    demo group is [None], not an [UnknownGeneratorError], and [generate]
    raises [TypeError]. *)
Lemma C5_unregistered_name_gives_None :
  (generator Demo.activate_account ∉
     registry_available (∅ : gmap string Generator)) ∧
  get_generator ∅ Demo.activate_account = inr None ∧
  get_generator ∅ Demo.activate_account ≠ inl UnknownGeneratorError ∧
  generate ∅ 1000 Demo.activate_account None [] Demo.w0 =
    (inl TypeError, Demo.w0).
Proof.
  split.
  { unfold registry_available. rewrite dom_empty_L. apply not_elem_of_empty. }
  split; [done|]. split; [done|]. done.
Qed.

(** C3.  [save] tests [if self.group.ttl:], so a group whose ttl is the
    integer 0 is treated like one without ttl: the key that [generate]
    stores for [Demo.one_shot] has [expires] unset, where [pub_date + ttl]
    would be [Some 1000], and it is in [available()] at every later time. *)
Theorem C3_ttl_zero_leaves_expires_unset :
  ttl Demo.one_shot = Some 0 ∧
  ∃ k w',
    generate Demo.registry 1000 Demo.one_shot None [] Demo.w0 = (inr k, w') ∧
    keys w' = [k] ∧
    pub_date k = Some 1000 ∧
    expires k = None ∧
    ∀ now, k ∈ available now w'.
Proof.
  split; [done|]. eexists _, _. split; [by vm_compute|].
  repeat split. intros now. apply elem_of_available.
  split; [by apply list_elem_of_singleton|]. by split; [|left].
Qed.

(** ** [clean] *)






(** ** [expires] over the life of a key *)




(** ** The integrity constraints are an invariant

    Every operation of the module takes a consistent database to a
    consistent database, whether it returns or raises; the empty table is
    consistent.  So [wf_world] holds in every state the module can reach. *)

Lemma update_row_elem_weak (k r : Key) (rows : list Key) :
  r ∈ update_row k rows → r = k ∨ r ∈ rows.
Proof.
  unfold update_row. intros (r0 & -> & Hr0)%list_elem_of_fmap.
  case_decide; auto.
Qed.

Lemma update_row_absent (k : Key) (rows : list Key) :
  pk k ∉ pk <$> rows → update_row k rows = rows.
Proof.
  intros Hnot. unfold update_row. rewrite <- (list_fmap_id rows) at 2.
  apply Forall_fmap_ext, Forall_forall. intros r Hr.
  rewrite decide_False; [done|]. intros Heq. apply Hnot. rewrite <- Heq.
  by apply list_elem_of_fmap_2.
Qed.

Lemma update_row_NoDup_key (k : Key) (rows : list Key) :
  NoDup (pk <$> rows) → NoDup (key <$> rows) →
  (∀ r, r ∈ rows → key r = key k → pk r = pk k) →
  NoDup (key <$> update_row k rows).
Proof.
  induction rows as [|a rows IH]; intros Hpks Hkeys Hfree; [done|].
  rewrite fmap_cons in Hpks. rewrite fmap_cons in Hkeys.
  apply NoDup_cons in Hpks as [Hpa Hpks].
  apply NoDup_cons in Hkeys as [Hka Hkeys].
  change (update_row k (a :: rows))
    with ((if decide (pk a = pk k) then k else a) :: update_row k rows).
  rewrite fmap_cons. apply NoDup_cons.
  destruct (decide (pk a = pk k)) as [Heq|Hne].
  - rewrite update_row_absent by (by rewrite <- Heq). split; [|done].
    intros (r & Hrk & Hr)%list_elem_of_fmap. apply Hpa.
    rewrite Heq, <- (Hfree r) by (by (apply elem_of_cons; right) || done).
    by apply list_elem_of_fmap_2.
  - split.
    + intros (r & Hrk & Hr)%list_elem_of_fmap.
      apply update_row_elem_weak in Hr as [->|Hr].
      * apply Hne. apply Hfree; [apply elem_of_cons; by left|done].
      * apply Hka. rewrite Hrk. by apply list_elem_of_fmap_2.
    + apply IH; [done..|]. intros r Hr. apply Hfree, elem_of_cons. by right.
Qed.

Lemma key_taken_false (k : Key) (rows : list Key) :
  key_taken k rows = false →
  ∀ r, r ∈ rows → key r = key k → pk r = pk k.
Proof.
  intros Hfree%bool_decide_eq_false r Hr Hkey.
  destruct (decide (pk r = pk k)) as [|Hne]; [done|].
  exfalso. apply Hfree, Exists_exists. eauto.
Qed.

Lemma row_exists_false (i : nat) (rows : list Key) :
  row_exists i rows = false → Some i ∉ pk <$> rows.
Proof.
  intros Hno%bool_decide_eq_false (r & Hi & Hr)%list_elem_of_fmap.
  apply Hno, Exists_exists. eauto.
Qed.

Lemma fresh_pk_not_in (rows : list Key) : Some (fresh_pk rows) ∉ pk <$> rows.
Proof.
  intros (r & Hi & Hr)%list_elem_of_fmap. by apply (fresh_pk_unused rows r).
Qed.

(** Appending a row whose primary key is new and whose key string is not
    taken. *)
Lemma insert_row_wf (k : Key) (w : World) :
  wf_world w → wf_row (groups w) k →
  pk k ∉ pk <$> keys w → key_taken k (keys w) = false →
  wf_world (set_keys (keys w ++ [k]) w).
Proof.
  intros (Hrows & Hpks & Hkeys) Hk Hpk Hfree. unfold wf_world. simpl.
  rewrite !fmap_app. simpl. split; [|split].
  - apply Forall_app. by rewrite Forall_singleton.
  - apply NoDup_app. split; [done|]. split; [|apply NoDup_singleton].
    by intros x Hx ->%list_elem_of_singleton.
  - apply NoDup_app. split; [done|]. split; [|apply NoDup_singleton].
    intros x (r & -> & Hr)%list_elem_of_fmap Hx%list_elem_of_singleton.
    apply Hpk. rewrite <- (key_taken_false k (keys w) Hfree r Hr Hx).
    by apply list_elem_of_fmap_2.
Qed.

Lemma Model_save_wf (now : datetime) (k : Key) (w : World) :
  wf_world w → wf_world (snd (Model_save now k w)).
Proof.
  intros Hwf. unfold Model_save. cbv zeta.
  destruct (match pk k with
            | Some i => row_exists i (keys w)
            | None => false
            end) eqn:Hex.
  - destruct (pk k) as [i|] eqn:Hpk; [|done].
    destruct (key_taken k (keys w)) eqn:Hfree; [done|].
    case_bool_decide as Hgrp; [done|].
    case_bool_decide as Hpub; [done|].
    apply not_eq_None_Some in Hgrp. apply not_eq_None_Some in Hpub.
    destruct Hwf as (Hrows & Hpks & Hkeys). unfold wf_world. simpl.
    rewrite update_row_fmap_pk. split; [|split; [done|]].
    + rewrite Forall_forall in *.
      intros r [->|Hr]%update_row_elem_weak; [|auto].
      unfold wf_row. rewrite Hpk. eauto.
    + apply update_row_NoDup_key; [done..|]. by apply key_taken_false.
  - set (k1 := set_pub_date (Some now) _).
    destruct (key_taken k1 (keys w)) eqn:Hfree; [done|].
    case_bool_decide as Hgrp; [done|].
    case_bool_decide as Hpub; [done|].
    apply not_eq_None_Some in Hgrp.
    apply insert_row_wf; [done| | |done].
    + unfold wf_row. subst k1. simpl in *. split; [|split; [eauto|done]].
      destruct (pk k) as [i|] eqn:Hpk; simpl; [rewrite Hpk|]; eauto.
    + subst k1. destruct (pk k) as [i|] eqn:Hpk; simpl.
      * rewrite Hpk. by apply row_exists_false.
      * apply fresh_pk_not_in.
Qed.

Lemma keeps_wf_ret {A} (a : A) : keeps_wf (ret a).
Proof. by intros w Hwf. Qed.

Lemma keeps_wf_raise {A} (e : Exn) : keeps_wf (@raise A e).
Proof. by intros w Hwf. Qed.

Lemma keeps_wf_bind {A B} (c : M A) (f : A → M B) :
  keeps_wf c → (∀ a, keeps_wf (f a)) → keeps_wf (bind c f).
Proof.
  intros Hc Hf w Hwf. unfold bind. specialize (Hc w Hwf).
  destruct (c w) as [[e|a] w1]; [done|]. by apply Hf.
Qed.

Lemma keeps_wf_Model_save (now : datetime) (k : Key) :
  keeps_wf (Model_save now k).
Proof. intros w. apply Model_save_wf. Qed.

Lemma keeps_wf_self_group (cache : option KeyGroup) (k : Key) :
  keeps_wf (self_group cache k).
Proof.
  intros w Hwf. unfold self_group, KeyGroup_objects_get, ret.
  destruct cache; [done|]. by destruct (groups w !! group k).
Qed.

Lemma keeps_wf_save (now : datetime) (cache : option KeyGroup) (k : Key) :
  keeps_wf (save now cache k).
Proof.
  unfold save. apply keeps_wf_bind; [apply keeps_wf_Model_save|]. intros k1.
  apply keeps_wf_bind; [apply keeps_wf_self_group|]. intros g.
  destruct (truthy_int (ttl g)); [|apply keeps_wf_ret].
  destruct (ttl g) as [t|]; [|apply keeps_wf_raise].
  destruct (pub_date k1) as [p|]; [|apply keeps_wf_raise].
  apply keeps_wf_bind; [apply keeps_wf_Model_save|]. intros k2.
  apply keeps_wf_ret.
Qed.


(** [claim] keeps the constraints. *)
Lemma claim_wf (now : datetime) (ks : string) (c : User) :
  keeps_wf (claim now ks c).
Proof.
  unfold claim. apply keeps_wf_bind.
  { intros w Hwf. unfold claim_lookup, Key_objects_get.
    by destruct (filter _ (keys w)) as [|k [|k' rows]]. }
  intros k. unfold claim_commit.
  apply keeps_wf_bind.
  { destruct (expires k) as [e|]; [|apply keeps_wf_ret].
    destruct (e <=? now); [apply keeps_wf_raise|apply keeps_wf_ret]. }
  intros _. apply keeps_wf_bind.
  { case_bool_decide; [apply keeps_wf_raise|apply keeps_wf_ret]. }
  intros _. cbv zeta. apply keeps_wf_bind; [apply keeps_wf_save|]. intros r.
  apply keeps_wf_bind; [|intros _; apply keeps_wf_ret].
  intros w Hwf. exact Hwf.
Qed.





(** * Further properties of the module *)

(** ** The outcome of [claim] in a consistent database *)

Lemma claim_cases (now : datetime) (ks : string) (c : User) (w : World) :
  wf_world w → claim_case now ks c w.
Proof.
  intros Hwf. pose proof Hwf as (_ & _ & Hnd).
  destruct (filter (λ r, key r = ks) (keys w)) as [|k rest] eqn:Hf.
  { assert (∀ r, r ∈ keys w → key r ≠ ks) as Habs.
    { intros r Hr Hk. by apply (filter_nil_not_elem_of _ _ r Hf). }
    apply case_absent; [done|by apply claim_absent]. }
  assert (k ∈ filter (λ r, key r = ks) (keys w)) as [Hks Hk]%list_elem_of_filter
    by (rewrite Hf; apply elem_of_cons; by left).
  destruct (decide (live_at now (expires k))) as [Hlive|Hdead].
  - destruct (claimed k) as [t|] eqn:Hcl.
    + assert (is_Some (claimed k)) as Hsome by (rewrite Hcl; eauto).
      apply (case_claimed _ _ _ _ k); try done.
      by apply (claim_already _ _ _ k).
    + destruct (wf_row_group w k Hwf Hk) as [g Hg].
      apply (case_ok _ _ _ _ k g); try done. by apply claim_ok.
  - unfold live_at in Hdead. destruct (expires k) as [e|] eqn:He; [|done].
    assert (e ≤ now) as Hle by lia.
    apply (case_expired _ _ _ _ k e); try done.
    by apply (claim_expired _ _ _ k).
Qed.

(** ** [generate] *)



Lemma Model_save_collision (now : datetime) (k r : Key) (w : World) :
  pk k = None → r ∈ keys w → key r = key k →
  Model_save now k w = (inl IntegrityError, w).
Proof.
  intros Hpk Hr Hkey. unfold Model_save. rewrite Hpk. cbv zeta.
  assert (key_taken
            (set_pub_date (Some now) (set_pk (Some (fresh_pk (keys w))) k))
            (keys w) = true) as ->; [|done].
  apply bool_decide_eq_true_2, Exists_exists. exists r.
  split; [done|]. split; [done|]. simpl. by apply fresh_pk_unused.
Qed.

(** X2.  A key string that some row already has is not stored a second
    time: [generate] raises [IntegrityError], from the unique constraint on
    [key], and leaves the world as it was.  It does not try another
    string. *)
Theorem X2_generate_key_collision (registry : gmap string Generator)
    (now : datetime) (g : KeyGroup) (seed : option string)
    (args : list string) (G : Generator) (w : World) (r : Key) :
  registry !! generator g = Some G →
  r ∈ keys w → key r = G seed args →
  generate registry now g seed args w = (inl IntegrityError, w).
Proof.
  intros HG Hr Hkey. unfold generate.
  rewrite (get_generator_registered registry g G) by done.
  unfold bind, save, bind. cbv zeta.
  by rewrite (Model_save_collision now _ r).
Qed.

(** Generating twice from the same seed. *)
Lemma X2_generate_key_collision_witness :
  generate Demo.registry 5000 Demo.activate_account None [] Demo.w1 =
    (inl IntegrityError, Demo.w1).
Proof.
  apply (X2_generate_key_collision Demo.registry 5000 Demo.activate_account
           None [] Demo.md5_hex Demo.w1 Demo.T1).
  - compute_done.
  - compute_done.
  - reflexivity.
Defined.

Lemma elem_of_available_live (now : datetime) (w : World) (k : Key) :
  k ∈ available now w ↔ k ∈ keys w ∧ claimed k = None ∧ live_at now (expires k).
Proof.
  rewrite elem_of_available. unfold live_at.
  destruct (expires k) as [e|]; split;
    intros (? & ? & H); (split; [done|split; [done|]]).
  - by destruct H as [?|(e' & [= <-] & ?)].
  - right. eauto.
  - done.
  - by left.
Qed.



(** ** [claim] and the views *)

Lemma same_key_row (w : World) (k1 k2 : Key) :
  wf_world w → k1 ∈ keys w → k2 ∈ keys w → key k1 = key k2 → k1 = k2.
Proof.
  intros (_ & _ & Hnd). by apply fmap_inj_on_NoDup.
Qed.

Lemma elem_of_expired_live (now : datetime) (w : World) (k : Key) :
  k ∈ expired now w ↔ k ∈ keys w ∧ ¬ live_at now (expires k).
Proof.
  rewrite elem_of_expired. unfold live_at.
  destruct (expires k) as [e|]; split.
  - intros (? & e' & [= <-] & ?). split; [done|lia].
  - intros (? & ?). split; [done|]. exists e. split; [done|lia].
  - by intros (? & e' & ? & _).
  - by intros (_ & ?).
Qed.




(** ** What [claim] leaves alone *)

Lemma update_row_fmap_field {B} (f : Key → B) (k k0 : Key) (rows : list Key) :
  NoDup (pk <$> rows) → k0 ∈ rows → pk k = pk k0 → f k = f k0 →
  f <$> update_row k rows = f <$> rows.
Proof.
  intros Hnd Hk0 Hpk Hf. unfold update_row. rewrite <- list_fmap_compose.
  apply Forall_fmap_ext, Forall_forall. intros r Hr. simpl.
  case_decide as Hd; [|done].
  rewrite Hpk in Hd.
  by rewrite (fmap_inj_on_NoDup pk rows r k0 Hnd Hr Hk0 Hd).
Qed.

(** X5.  In a consistent database a call of [claim], whatever its
    outcome, adds no row and deletes none, and leaves the columns [id],
    [key], [group], [fact] and [pub_date] of every row, and the table of
    groups, as they were. *)
Theorem X5_claim_keeps_rows (now : datetime) (ks : string) (c : User)
    (w : World) :
  wf_world w →
  pk <$> keys (snd (claim now ks c w)) = pk <$> keys w ∧
  key <$> keys (snd (claim now ks c w)) = key <$> keys w ∧
  group <$> keys (snd (claim now ks c w)) = group <$> keys w ∧
  fact <$> keys (snd (claim now ks c w)) = fact <$> keys w ∧
  pub_date <$> keys (snd (claim now ks c w)) = pub_date <$> keys w ∧
  groups (snd (claim now ks c w)) = groups w.
Proof.
  intros Hwf.
  destruct (claim_cases now ks c w Hwf)
    as [_ Hc|k e _ _ _ _ Hc|k _ _ _ _ Hc|k g Hk Hks Hlive Hcl Hg Hc];
    rewrite Hc; [done..|].
  simpl. destruct Hwf as (_ & Hnd & _).
  by rewrite !(update_row_fmap_field _ _ k).
Qed.

(** Claiming the demo key. *)
Lemma X5_claim_keeps_rows_witness :
  key <$> keys Demo.w2 = key <$> keys Demo.w1 ∧
  pub_date <$> keys Demo.w2 = pub_date <$> keys Demo.w1.
Proof.
  assert (wf_world Demo.w1) as Hwf by compute_done.
  destruct (X5_claim_keeps_rows 2000 "d41d8cd98f00b204" 7%nat Demo.w1 Hwf)
    as (_ & Hkey & _ & _ & Hpub & _).
  by split.
Defined.

Lemma claim_keeps_claimed_row (now : datetime) (ks : string) (c : User)
    (w : World) (k : Key) :
  wf_world w → k ∈ keys w → is_Some (claimed k) →
  k ∈ keys (snd (claim now ks c w)).
Proof.
  intros Hwf Hk [t Ht].
  destruct (claim_cases now ks c w Hwf)
    as [_ Hc|k0 e _ _ _ _ Hc|k0 _ _ _ _ Hc|k0 g Hk0 Hks Hlive Hcl Hg Hc];
    rewrite Hc; [done..|].
  simpl. apply (update_row_elem _ k0); [done..|]. right. split; [done|].
  change (pk (claimed_instance now c g k0)) with (pk k0).
  apply (pk_distinct_rows (keys w)); [apply Hwf|done..|].
  intros ->. by rewrite Hcl in Ht.
Qed.


(** X6.  In a consistent database a row whose [claimed] is set is final
    for [claim]: after any sequence of calls of [claim], on this or any
    other key string, by anyone and at any time, the table still holds that
    very row, with the same [claimed], [claimed_by] and [expires]. *)
Theorem X6_claimed_row_is_final (calls : list (datetime * string * User))
    (w : World) (k : Key) :
  wf_world w → k ∈ keys w → is_Some (claimed k) →
  k ∈ keys (snd (claim_all calls w)).
Proof.
  revert w. induction calls as [|[[now ks] c] rest IH]; intros w Hwf Hk Hcl;
    [done|].
  simpl. pose proof (claim_wf now ks c w Hwf) as Hwf1.
  pose proof (claim_keeps_claimed_row now ks c w k Hwf Hk Hcl) as Hk1.
  destruct (claim now ks c w) as [r w1]. specialize (IH w1 Hwf1 Hk1 Hcl).
  by destruct (claim_all rest w1) as [rs w2].
Qed.

(** The claimed demo key under three further calls. *)
Lemma X6_claimed_row_is_final_witness :
  Demo.T1_claimed ∈
    keys (snd (claim_all [(2500, "d41d8cd98f00b204"%string, 8%nat);
                          (2600, "0000"%string, 8%nat);
                          (3600001000, "d41d8cd98f00b204"%string, 9%nat)]
                 Demo.w2)).
Proof.
  apply X6_claimed_row_is_final.
  - compute_done.
  - compute_done.
  - simpl. eauto.
Defined.



(** ** [delete_expired] and the clock *)

Lemma list_difference_filter (P : Key → Prop) `{!∀ x, Decision (P x)}
    (l l0 : list Key) :
  (∀ x, x ∈ l → x ∈ l0) →
  list_difference l (filter P l0) = filter (λ x, ¬ P x) l.
Proof.
  induction l as [|a l IH]; intros Hsub; [done|]. simpl.
  assert (a ∈ l0) as Ha by (apply Hsub, elem_of_cons; by left).
  assert (∀ x, x ∈ l → x ∈ l0) as Hl
    by (intros x Hx; apply Hsub, elem_of_cons; by right).
  destruct (decide_rel elem_of a (filter P l0)) as [Hin|Hout].
  - apply list_elem_of_filter in Hin as [HP _].
    rewrite filter_cons_False by tauto. by apply IH.
  - rewrite filter_cons_True; [by rewrite IH|].
    intros HP. apply Hout. by apply list_elem_of_filter.
Qed.

Lemma delete_expired_keys (now : datetime) (w : World) :
  keys (snd (delete_expired now w)) =
    filter (λ r, ¬ expires__lte now r) (keys w).
Proof. simpl. by apply list_difference_filter. Qed.

Lemma expires__lte_mono (now later : datetime) (r : Key) :
  now ≤ later → expires__lte now r → expires__lte later r.
Proof.
  rewrite !expires__lte_spec. intros Hle (e & He & ?).
  exists e. split; [done|lia].
Qed.

Lemma delete_expired_world (now : datetime) (w : World) :
  snd (delete_expired now w) =
    set_keys (filter (λ r, ¬ expires__lte now r) (keys w)) w.
Proof.
  rewrite <- delete_expired_keys. by destruct w.
Qed.

(** X8.  Sweeps absorb: after [delete_expired()] at some clock reading, a
    sweep at the same or an earlier reading changes nothing, and a sweep at
    an earlier reading followed by one at a later reading leaves what the
    later one alone leaves.  In particular [delete_expired()] twice at one
    reading is [delete_expired()] once. *)
Theorem X8_delete_expired_absorbs (now later : datetime) (w : World) :
  now ≤ later →
  snd (delete_expired later (snd (delete_expired now w))) =
    snd (delete_expired later w) ∧
  snd (delete_expired now (snd (delete_expired later w))) =
    snd (delete_expired later w).
Proof.
  intros Hle. rewrite !delete_expired_world. unfold set_keys. simpl.
  split; f_equal; rewrite list_filter_filter; apply list_filter_iff; intros r.
  - split; [tauto|]. intros Hlater. split; [done|].
    intros Hnow. by apply Hlater, (expires__lte_mono now).
  - split; [tauto|]. intros Hlater. split; [|done].
    intros Hnow. by apply Hlater, (expires__lte_mono now).
Qed.

(** Two sweeps of the claimed demo table, one before and one after the
    key's expiry. *)
Lemma X8_delete_expired_absorbs_witness :
  snd (delete_expired 3600001000 (snd (delete_expired 2500 Demo.w2))) =
    snd (delete_expired 3600001000 Demo.w2).
Proof.
  apply (X8_delete_expired_absorbs 2500 3600001000 Demo.w2). lia.
Defined.

Lemma claim_commit_not_expired (now : datetime) (c : User) (k : Key)
    (w : World) (e : datetime) :
  live_at now (expires k) →
  fst (claim_commit now c k w) ≠ inl (VerificationError (Key_expired_on e)).
Proof.
  intros Hlive. unfold claim_commit, bind. rewrite live_at_check by done.
  case_bool_decide; [done|]. unfold ret at 1. cbv beta iota zeta.
  match goal with
  | |- context [save ?t ?o ?x ?y] =>
      destruct (save t o x y) as [[e'|r] w1] eqn:Hsave
  end; simpl; [|done].
  apply save_raises in Hsave as [->|[->| ->]]; done.
Qed.

(** X9.  A sweep hides expired keys from [claim].  In a consistent
    database, once [delete_expired()] ran at [now], claiming the string of a
    key that had expired by then raises the "does not exist" error, at any
    later time and leaving the swept world as it is; and no call of [claim]
    made at the clock reading of the sweep raises the "expired" error. *)
Theorem X9_swept_key_does_not_exist (now later : datetime) (ks : string)
    (c : User) (k : Key) (e : datetime) (w : World) :
  wf_world w → k ∈ keys w → key k = ks → expires k = Some e → e ≤ now →
  claim later ks c (snd (delete_expired now w)) =
    (inl (VerificationError (Key_does_not_exist ks)),
     snd (delete_expired now w)) ∧
  ∀ ks' c' e',
    fst (claim now ks' c' (snd (delete_expired now w))) ≠
      inl (VerificationError (Key_expired_on e')).
Proof.
  intros Hwf Hk Hks He Hle. split.
  - apply claim_absent. intros r Hr Hkey.
    rewrite delete_expired_keys in Hr.
    apply list_elem_of_filter in Hr as [Hlive Hr].
    assert (r = k) as -> by (apply (same_key_row w); [done..|congruence]).
    apply Hlive, expires__lte_spec. eauto.
  - intros ks' c' e'. unfold claim, bind, claim_lookup, Key_objects_get.
    destruct (filter (λ r, key r = ks') (keys (snd (delete_expired now w))))
      as [|r [|r' rest]] eqn:Hf; [done| |done].
    assert (r ∈ filter (λ r, key r = ks') (keys (snd (delete_expired now w))))
      as [_ Hr]%list_elem_of_filter
      by (rewrite Hf; by apply list_elem_of_singleton).
    rewrite delete_expired_keys in Hr.
    apply list_elem_of_filter in Hr as [Hlive _].
    pose proof (claim_commit_not_expired now c' r
                  (snd (delete_expired now w)) e') as Hne.
    destruct (claim_commit now c' r (snd (delete_expired now w))) as [res w1].
    apply Hne. unfold live_at. destruct (expires r) as [x|] eqn:Hx; [|done].
    destruct (decide (now < x)) as [|Hge]; [done|].
    exfalso. apply Hlive, expires__lte_spec. exists x. split; [done|lia].
Qed.

(** The claimed demo key after a sweep at its expiry. *)
Lemma X9_swept_key_does_not_exist_witness :
  claim 3600002000 "d41d8cd98f00b204" 8%nat
      (snd (delete_expired 3600001000 Demo.w2)) =
    (inl (VerificationError (Key_does_not_exist "d41d8cd98f00b204")),
     snd (delete_expired 3600001000 Demo.w2)).
Proof.
  apply (X9_swept_key_does_not_exist 3600001000 3600002000 "d41d8cd98f00b204"
           8%nat Demo.T1_claimed 3600001000 Demo.w2).
  - compute_done.
  - compute_done.
  - reflexivity.
  - reflexivity.
  - lia.
Defined.

(** X12.  As the clock advances [expired()] only gains rows and
    [available()] only loses rows: a row that is expired at one reading is
    expired at every later one, and a row available at a later reading was
    available at every earlier one. *)
Theorem X12_views_and_the_clock (now later : datetime) (w : World) (k : Key) :
  now ≤ later →
  (k ∈ expired now w → k ∈ expired later w) ∧
  (k ∈ available later w → k ∈ available now w).
Proof.
  intros Hle. rewrite !elem_of_expired_live, !elem_of_available_live.
  unfold live_at. destruct (expires k) as [e|]; split.
  - intros (? & Hdead). split; [done|lia].
  - intros (? & ? & ?). repeat split; [done..|lia].
  - done.
  - done.
Qed.

(** The claimed demo key at its expiry and a second later. *)
Lemma X12_views_and_the_clock_witness :
  Demo.T1_claimed ∈ expired 3601001000 Demo.w2.
Proof.
  apply (X12_views_and_the_clock 3600001000 3601001000 Demo.w2
           Demo.T1_claimed); [lia|compute_done].
Defined.

(** ** Saving again *)




(** ** The recipient of the verification mail *)

Lemma filter_lstrip {char} (isspace : char → bool) (s : list char) :
  filter (λ c, ¬ isspace c) (lstrip isspace s) = filter (λ c, ¬ isspace c) s.
Proof.
  induction s as [|c s IH]; [done|]. simpl.
  destruct (isspace c) eqn:Hc; [|done].
  rewrite filter_cons_False; [done|]. rewrite Hc. by intros H.
Qed.

Lemma filter_strip {char} (isspace : char → bool) (s : list char) :
  filter (λ c, ¬ isspace c) (strip isspace s) = filter (λ c, ¬ isspace c) s.
Proof.
  unfold strip, rstrip.
  rewrite filter_reverse, filter_lstrip, <- filter_reverse, reverse_involutive.
  apply filter_lstrip.
Qed.

Lemma concat_split_from {char} (isspace : char → bool) (word s : list char) :
  concat (split_from isspace word s) =
    reverse word ++ filter (λ c, ¬ isspace c) s.
Proof.
  revert word. induction s as [|c s IH]; intros word; simpl.
  - destruct word; [done|]. simpl. by rewrite !app_nil_r.
  - destruct (isspace c) eqn:Hc.
    + rewrite filter_cons_False by (intros H; apply H; by rewrite Hc).
      destruct word; simpl; by rewrite IH.
    + rewrite filter_cons_True by (by apply Is_true_false).
      rewrite IH, reverse_cons. by rewrite <- app_assoc.
Qed.

(** X11.  [send_verification_email] hands [send_mail] one recipient: the
    given address with every whitespace character removed, at the ends and
    inside, the other characters in their order.  So the recipient contains
    no whitespace, and an address without whitespace is passed on as it is.
    Subject, body and sender are passed on untouched. *)
Theorem X11_recipient_without_whitespace {char} (isspace : char → bool)
    (subject noreply recipient content : list char) :
  mail_recipients
      (send_verification_email isspace subject noreply recipient content) =
    [filter (λ c, ¬ isspace c) recipient] ∧
  Forall (Forall (λ c, isspace c = false))
    (mail_recipients
       (send_verification_email isspace subject noreply recipient content)) ∧
  (Forall (λ c, isspace c = false) recipient →
     mail_recipients
       (send_verification_email isspace subject noreply recipient content) =
     [recipient]) ∧
  mail_message
      (send_verification_email isspace subject noreply recipient content) =
    content.
Proof.
  assert (mail_recipients
            (send_verification_email isspace subject noreply recipient content) =
          [filter (λ c, ¬ isspace c) recipient]) as Heq.
  { unfold send_verification_email, join_empty, split. simpl.
    by rewrite concat_split_from, filter_strip. }
  rewrite Heq. split; [done|]. split; [|split; [|done]].
  - apply Forall_singleton, Forall_forall.
    intros c [Hc _]%list_elem_of_filter. by destruct (isspace c).
  - intros Hclean. f_equal. clear Heq.
    induction Hclean as [|c s Hc _ IH]; [done|].
    rewrite filter_cons_True by (by apply Is_true_false). by rewrite IH.
Qed.

(** An address typed with blanks around and inside it. *)
Lemma X11_recipient_without_whitespace_witness :
  mail_recipients
    (send_verification_email
       (λ c : ascii, bool_decide (c ∈ [" "; "009"; "010"; "013"]%char))
       [] [] [" "; "a"; " "; "b"; "@"; "x"; "010"]%char []) =
  [["a"; "b"; "@"; "x"]%char].
Proof.
  destruct (X11_recipient_without_whitespace
              (λ c : ascii, bool_decide (c ∈ [" "; "009"; "010"; "013"]%char))
              [] [] [" "; "a"; " "; "b"; "@"; "x"; "010"]%char [])
    as (Heq & _).
  rewrite Heq. by vm_compute.
Defined.

(** ** The key issued by the demo's sign-up view *)



